(** * Snap-O command-line launcher ([snapo-app-mac/SnapOCLI/main.c])

    The launcher canonicalises its own path, removes the last two path
    components, appends the fixed location of the helper executable and
    replaces its own process image with the helper.

    Conventions of the embedding:
    - a C string is the [string] of its bytes before the terminating NUL;
      a pointer into a string is the offset ([nat]) of the byte it points to,
      [NULL] is [None];
    - an array of [char *] is a [list (option string)], read with [!!] and
      written with [<[i:=v]>];
    - C integers are [Z]; the one cast of the source ([(size_t)written]) is
      written out as a reduction modulo [2^64];
    - calls into the operating system ([realpath], [calloc], [execv],
      [strerror], writes to standard error) go through an oracle record
      [OS] and are logged as [event]s, in program order. *)

From Stdlib Require Import ZArith Ascii String.
From stdpp Require Import base list strings.

Local Open Scope Z_scope.

(** ** String functions of the C library used by the launcher *)

Module CString.

(** [strrchr(s, c)]: offset of the last occurrence of [c] in [s], [None]
    for the null pointer.  Only used with [c <> NUL]. *)
Fixpoint strrchr (s : string) (c : ascii) : option nat :=
  match s with
  | EmptyString => None
  | String a s' =>
      match strrchr s' c with
      | Some i => Some (S i)
      | None => if Ascii.eqb a c then Some O else None
      end
  end.

(** [s[i] = '\0']: the string now ends at offset [i]. *)
Fixpoint store_nul (s : string) (i : nat) : string :=
  match i, s with
  | S i', String a s' => String a (store_nul s' i')
  | _, _ => EmptyString
  end.

(** Number of occurrences of [c] in [s]. *)
Fixpoint count_char (c : ascii) (s : string) : nat :=
  match s with
  | EmptyString => O
  | String a s' => (if Ascii.eqb a c then 1 else 0)%nat + count_char c s'
  end.

Definition INT_MAX : Z := 2147483647.
Definition SIZE_MAX : Z := 2 ^ 64 - 1.

(** The cast [(size_t)x] of an [int]. *)
Definition to_size_t (x : Z) : Z := x mod (SIZE_MAX + 1).

(** The text that the format ["%s/%s"] produces. *)
Definition format_s_slash_s (a b : string) : string := a +:+ "/" +:+ b.

(** [snprintf(out, out_size, "%s/%s", a, b)]: the value returned and the new
    content of [out].  The return value is the length of the whole text, or
    negative when that length is not representable as an [int]; at most
    [out_size - 1] bytes are stored. *)
Definition snprintf_s_slash_s (out : string) (out_size : Z) (a b : string)
  : Z * string :=
  let text := format_s_slash_s a b in
  let n := Z.of_nat (String.length text) in
  if INT_MAX <? n then (-1, out)
  else if out_size <=? 0 then (n, out)
  else (n, store_nul text (Z.to_nat (out_size - 1))).

End CString.

(** ** The operating system *)

Definition errno := Z.

Record OS := {
  (** [realpath(path, buf)]: the canonical absolute path, or [None] when the
      call returns [NULL]. *)
  realpath : string -> option string;
  (** whether [calloc(count, size)] returns a block *)
  calloc : Z -> Z -> bool;
  (** [execv(path, argv)]: [None] when the process image is replaced (the call
      does not return), [Some e] when it returns [-1] with [errno = e]. *)
  execv : string -> list (option string) -> option errno;
  strerror : errno -> string
}.

Inductive event :=
| EvRealpath (path : option string)
| EvCalloc (count size : Z)
| EvExecv (path : string) (argv : list (option string))
| EvStderr (text : string)
| EvFree.

(** Computations that log the calls they make. *)
Definition IO (A : Type) : Type := list event -> A * list event.

Definition ret {A} (a : A) : IO A := fun t => (a, t).
Definition bind {A B} (m : IO A) (k : A -> IO B) : IO B :=
  fun t => let '(a, t') := m t in k a t'.
Definition emit (e : event) : IO unit := fun t => (tt, t ++ [e]).
Definition run {A} (m : IO A) : A * list event := m [].

Notation "x <- m ;; k" := (bind m (fun x => k))
  (at level 100, m at next level, right associativity).
Notation "m ;;; k" := (bind m (fun _ => k))
  (at level 100, right associativity).

(** ** The launcher *)

Definition newline : string := String "010"%char EmptyString.

Definition kHelperRelativeExecutable : string :=
  "Helpers/Snap-O Network Inspector.app/Contents/MacOS/Snap-O Network Inspector".

(** The size of a pointer to [char], on the 64-bit targets of the
    application. *)
Definition sizeof_char_ptr : Z := 8.

(** The three places where [resolve_helper_executable] returns [-1]: after
    [realpath], after either [strrchr], after [snprintf]. *)
Inductive resolve_error := ResolutionError | LayoutError | FormattingError.

(** How [main] ends: it returns a status, or [execv] has replaced the process
    image and [main] never returns. *)
Inductive outcome :=
| Exit (status : Z)
| Replaced (path : string) (argv : list (option string)).

Definition resolve_diagnostic : string :=
  "snapo: failed to resolve helper executable path" +:+ newline.
Definition allocate_diagnostic : string :=
  "snapo: failed to allocate argument buffer" +:+ newline.
Definition launch_prefix : string := "snapo: failed to launch helper".

Section Launcher.

(** [PATH_MAX] comes from [<limits.h>]; it is [1024] on macOS. *)
Variable PATH_MAX : Z.
Variable os : OS.
(** What the automatic array [helper_executable] of [main] holds before it
    is written. *)
Variable uninitialised : string.

(** [realpath] of the null pointer fails (with [EINVAL]). *)
Definition sys_realpath (path : option string) : IO (option string) :=
  emit (EvRealpath path) ;;;
  ret (match path with
       | None => None
       | Some p => realpath os p
       end).

Definition sys_calloc (count size : Z) : IO bool :=
  emit (EvCalloc count size) ;;; ret (calloc os count size).

Definition sys_execv (path : string) (argv : list (option string))
  : IO (option errno) :=
  emit (EvExecv path argv) ;;; ret (execv os path argv).

Definition fprintf_stderr (text : string) : IO unit := emit (EvStderr text).

(** [perror(s)] with [errno = e]. *)
Definition perror (s : string) (e : errno) : IO unit :=
  emit (EvStderr (s +:+ ": " +:+ strerror os e +:+ newline)).

Definition free : IO unit := emit EvFree.

(** [resolve_helper_executable(argv0, out, out_size)].  [inl e] is
    [return -1], with the place [e] where it happens; [inr text] is
    [return 0] with [text] in [out].  After [return -1] the caller does not
    read [out], and its content is not modelled. *)
Definition resolve_helper_executable (argv0 : option string) (out : string)
    (out_size : Z) : IO (resolve_error + string) :=
  r <- sys_realpath argv0 ;;
  match r with
  | None => ret (inl ResolutionError)
  | Some resolved_executable =>
      match CString.strrchr resolved_executable "/" with
      | None => ret (inl LayoutError)
      | Some last_slash =>
          let resolved_executable :=
            CString.store_nul resolved_executable last_slash in
          match CString.strrchr resolved_executable "/" with
          | None => ret (inl LayoutError)
          | Some last_slash =>
              let resolved_executable :=
                CString.store_nul resolved_executable last_slash in
              let '(written, out) :=
                CString.snprintf_s_slash_s out out_size resolved_executable
                  kHelperRelativeExecutable in
              if (written <? 0) || (out_size <=? CString.to_size_t written)
              then ret (inl FormattingError)
              else ret (inr out)
          end
      end
  end.

(** [for (i = 1; i < argc; i++) child_argv[i] = argv[i];] *)
Definition copy_arguments (argc : nat) (argv : list string)
    (child_argv : list (option string)) : list (option string) :=
  foldl (fun child i => <[i := argv !! i]> child) child_argv
        (seq 1 (argc - 1)).

(** The block that [calloc] returned, after the stores of [main]. *)
Definition build_child_argv (helper_executable : string)
    (argv : list string) : list (option string) :=
  let argc := length argv in
  let child_argv := replicate (argc + 1) None in
  let child_argv := <[O := Some helper_executable]> child_argv in
  let child_argv := copy_arguments argc argv child_argv in
  <[argc := None]> child_argv.

(** [main(argc, argv)] with [argc = length argv] and [argv[argc] = NULL]. *)
Definition main (argv : list string) : IO outcome :=
  let argc := length argv in
  r <- resolve_helper_executable (argv !! O) uninitialised PATH_MAX ;;
  match r with
  | inl _ (* != 0 *) =>
      fprintf_stderr resolve_diagnostic ;;;
      ret (Exit 1)
  | inr helper_executable =>
      child <- sys_calloc (Z.of_nat argc + 1) sizeof_char_ptr ;;
      if negb child then
        fprintf_stderr allocate_diagnostic ;;;
        ret (Exit 1)
      else
        let child_argv := build_child_argv helper_executable argv in
        e <- sys_execv helper_executable child_argv ;;
        match e with
        | None => ret (Replaced helper_executable child_argv)
        | Some e =>
            perror launch_prefix e ;;;
            free ;;;
            ret (Exit 1)
        end
  end.

End Launcher.

(** ** Derived notions used in the statements *)

(** The string up to its last ['/'], when it has one. *)
Definition parent_dir (s : string) : option string :=
  match CString.strrchr s "/" with
  | Some i => Some (CString.store_nul s i)
  | None => None
  end.

(** Number of ['/'] in a path. *)
Definition depth (s : string) : nat := CString.count_char "/" s.

(** The path and its terminating NUL fit in a buffer of [size] bytes. *)
Definition fits (s : string) (size : Z) : Prop :=
  Z.of_nat (String.length s) + 1 <= size.

(** What was written to standard error, in order. *)
Definition stderr_of (t : list event) : list string :=
  omap (fun e => match e with EvStderr s => Some s | _ => None end) t.

(** Whether [execv] was called. *)
Definition is_execv (e : event) : bool :=
  match e with EvExecv _ _ => true | _ => false end.

(** One line: a single newline, at the very end. *)
Definition one_line (s : string) : Prop :=
  exists body, s = body +:+ newline /\ CString.count_char "010" body = O.

(** The result of [resolve_helper_executable] alone, without the log. *)
Definition resolved (os : OS) (argv0 : option string) (out : string)
    (out_size : Z) : resolve_error + string :=
  fst (run (resolve_helper_executable os argv0 out out_size)).

(** The path with its last two components removed. *)
Definition installation_root (canonical : string) : option string :=
  parent_dir canonical ≫= parent_dir.

(** The text of [perror("snapo: failed to launch helper")] for an [errno]. *)
Definition launch_diagnostic (os : OS) (e : errno) : string :=
  launch_prefix +:+ ": " +:+ strerror os e +:+ newline.

(** An absolute path: it begins with ['/']. *)
Definition absolute (s : string) : Prop := exists t, s = String "/" t.

(** ** Concrete systems, for the examples *)

Module Darwin.

Definition PATH_MAX : Z := 1024.
Definition ENOENT : errno := 2.
Definition ENOMEM : errno := 12.

Definition error_text (e : errno) : string :=
  if e =? ENOENT then "No such file or directory"
  else if e =? ENOMEM then "Cannot allocate memory"
  else "Unknown error".

(** A system where every path canonicalises to [canonical], allocation
    succeeds or not, and [execv] replaces the image or fails with [exec]. *)
Definition system (canonical : option string) (alloc : bool)
    (exec : option errno) : OS :=
  {| realpath := fun _ => canonical;
     calloc := fun _ _ => alloc;
     execv := fun _ _ => exec;
     strerror := error_text |}.

Fixpoint repeat_char (c : ascii) (n : nat) : string :=
  match n with
  | O => EmptyString
  | S n' => String c (repeat_char c n')
  end.

(** A directory whose path is 1001 bytes long. *)
Definition long_root : string := "/" +:+ repeat_char "r" 1000.

Definition helper_under (root : string) : string :=
  root +:+ "/" +:+ kHelperRelativeExecutable.

(** The launcher inside the application bundle, and a link to it. *)
Definition bundle_contents : string := "/Applications/Snap-O.app/Contents".
Definition bundle_launcher : string := bundle_contents +:+ "/MacOS/snapo".
Definition link_to_launcher : string := "/usr/local/bin/snapo".

(** A launcher three components below [/opt/app]. *)
Definition nested_launcher : string := "/opt/app/A/B/launcher".

(** A launcher two components below [long_root]. *)
Definition long_launcher : string := long_root +:+ "/bin/launcher".

End Darwin.

(** ** Facts about the string functions *)

Module CStringFacts.
Import CString.

Lemma length_app (a b : string) :
  String.length (a +:+ b) = (String.length a + String.length b)%nat.
Proof. induction a as [|x a IH]; simpl; [done | by rewrite IH]. Qed.

Lemma count_char_app c (a b : string) :
  count_char c (a +:+ b) = (count_char c a + count_char c b)%nat.
Proof. induction a as [|x a IH]; simpl; [done | rewrite IH; lia]. Qed.

Lemma strrchr_None s c : strrchr s c = None <-> count_char c s = O.
Proof.
  induction s as [|a s IH]; simpl; [done |].
  destruct (strrchr s c) as [i|] eqn:Hs.
  - split; [done |]. intros H.
    assert (count_char c s = O) as H0 by lia.
    apply IH in H0. discriminate.
  - destruct (Ascii.eqb a c); split; try done.
    + intros _. simpl. by apply IH.
Qed.

Lemma strrchr_app_sep r c t :
  strrchr t c = None ->
  strrchr (r +:+ String c t) c = Some (String.length r).
Proof.
  intros Ht. induction r as [|a r IH]; simpl.
  - by rewrite Ht, Ascii.eqb_refl.
  - by rewrite IH.
Qed.

Lemma store_nul_app r t : store_nul (r +:+ t) (String.length r) = r.
Proof.
  induction r as [|a r IH]; simpl; [by destruct t | by rewrite IH].
Qed.

Lemma store_nul_ge s i : (String.length s <= i)%nat -> store_nul s i = s.
Proof.
  revert i. induction s as [|a s IH]; intros [|i] H; simpl in *;
    try done; try lia.
  rewrite IH; [done | lia].
Qed.

Lemma length_store_nul s i :
  (i <= String.length s)%nat -> String.length (store_nul s i) = i.
Proof.
  revert i. induction s as [|a s IH]; intros [|i] H; simpl in *;
    try done; try lia.
  rewrite IH; [done | lia].
Qed.

(** [strrchr] points at a ['c'] with no ['c'] after it. *)
Lemma strrchr_Some s c i :
  strrchr s c = Some i ->
  exists t, s = store_nul s i +:+ String c t /\ strrchr t c = None.
Proof.
  revert i. induction s as [|a s IH]; simpl; intros i H; [done |].
  destruct (strrchr s c) as [j|] eqn:Hs.
  - injection H as <-. destruct (IH j eq_refl) as (t & Heq & Ht).
    exists t. split; [|done]. change (String a s = String a (store_nul s j +:+ String c t)). by f_equal.
  - destruct (Ascii.eqb a c) eqn:Hac; [|done].
    injection H as <-. apply Ascii.eqb_eq in Hac as ->.
    exists s. by destruct s.
Qed.

Lemma strrchr_lt s c i : strrchr s c = Some i -> (i < String.length s)%nat.
Proof.
  revert i. induction s as [|a s IH]; simpl; intros i H; [done |].
  destruct (strrchr s c) as [j|] eqn:Hs.
  - injection H as <-. specialize (IH j eq_refl). lia.
  - destruct (Ascii.eqb a c); [|done]. injection H as <-. lia.
Qed.

(** Cutting at the last ['c'] removes exactly one ['c']. *)
Lemma count_char_store_nul s c i :
  strrchr s c = Some i ->
  count_char c s = S (count_char c (store_nul s i)).
Proof.
  intros H. destruct (strrchr_Some _ _ _ H) as (t & Heq & Ht).
  rewrite Heq at 1. rewrite count_char_app. simpl.
  rewrite Ascii.eqb_refl. apply strrchr_None in Ht. lia.
Qed.

Lemma to_size_t_small x : 0 <= x <= INT_MAX -> to_size_t x = x.
Proof.
  intros H. unfold to_size_t, SIZE_MAX, INT_MAX in *.
  apply Z.mod_small. lia.
Qed.

End CStringFacts.

(** ** Facts about the launcher *)

Section LauncherFacts.

Variable PATH_MAX : Z.
Variable os : OS.
Variable uninitialised : string.

Import CString CStringFacts.

(** Resolution makes one call, to [realpath]. *)
Lemma resolve_helper_executable_log argv0 out out_size t :
  resolve_helper_executable os argv0 out out_size t
  = (resolved os argv0 out out_size, t ++ [EvRealpath argv0]).
Proof.
  unfold resolved, run, resolve_helper_executable, sys_realpath, bind, emit, ret.
  simpl.
  repeat (case_match; simpl; try done).
Qed.

(** The three failures and the success of resolution, by cases on what
    [realpath] and the two [strrchr] return. *)
Lemma resolved_realpath_failed argv0 out out_size :
  argv0 ≫= realpath os = None ->
  resolved os argv0 out out_size = inl ResolutionError.
Proof.
  intros H. unfold resolved, run, resolve_helper_executable, sys_realpath, bind,
    emit, ret. simpl.
  destruct argv0 as [p|]; simpl in *; [by rewrite H | done].
Qed.

Lemma resolved_no_parent argv0 out out_size canonical :
  argv0 ≫= realpath os = Some canonical ->
  parent_dir canonical = None ->
  resolved os argv0 out out_size = inl LayoutError.
Proof.
  intros H Hp. unfold resolved, run, resolve_helper_executable, sys_realpath,
    bind, emit, ret. simpl.
  destruct argv0 as [p|]; simpl in *; [|done]. rewrite H.
  unfold parent_dir in Hp. by destruct (strrchr canonical "/").
Qed.

Lemma resolved_no_grandparent argv0 out out_size canonical dir :
  argv0 ≫= realpath os = Some canonical ->
  parent_dir canonical = Some dir ->
  parent_dir dir = None ->
  resolved os argv0 out out_size = inl LayoutError.
Proof.
  intros H Hp Hg. unfold resolved, run, resolve_helper_executable, sys_realpath,
    bind, emit, ret. simpl.
  destruct argv0 as [p|]; simpl in *; [|done]. rewrite H.
  unfold parent_dir in Hp.
  destruct (strrchr canonical "/") as [i|]; [|done].
  injection Hp as ->. unfold parent_dir in Hg.
  by destruct (strrchr dir "/").
Qed.

Lemma resolved_join argv0 out out_size canonical dir root :
  argv0 ≫= realpath os = Some canonical ->
  parent_dir canonical = Some dir ->
  parent_dir dir = Some root ->
  resolved os argv0 out out_size
  = let '(written, text) :=
      snprintf_s_slash_s out out_size root kHelperRelativeExecutable in
    if (written <? 0) || (out_size <=? to_size_t written)
    then inl FormattingError else inr text.
Proof.
  intros H Hp Hg. unfold resolved, run, resolve_helper_executable, sys_realpath,
    bind, emit, ret. simpl.
  destruct argv0 as [p|]; simpl in *; [|done]. rewrite H.
  unfold parent_dir in Hp.
  destruct (strrchr canonical "/") as [i|]; [|done].
  injection Hp as ->. unfold parent_dir in Hg.
  destruct (strrchr _ "/") as [j|]; [|done].
  injection Hg as ->.
  destruct (snprintf_s_slash_s _ _ _ _) as [written text].
  by destruct (_ || _).
Qed.

(** [snprintf] followed by the check of its return value. *)
Lemma join_fits out out_size a b :
  Z.of_nat (String.length (format_s_slash_s a b)) <= INT_MAX ->
  fits (format_s_slash_s a b) out_size ->
  (let '(written, text) := snprintf_s_slash_s out out_size a b in
   if (written <? 0) || (out_size <=? to_size_t written)
   then inl FormattingError else inr text)
  = inr (format_s_slash_s a b).
Proof.
  unfold fits, snprintf_s_slash_s. intros Hint Hfit.
  set (text := format_s_slash_s a b) in *.
  destruct (Z.ltb_spec INT_MAX (Z.of_nat (String.length text))); [lia |].
  destruct (Z.leb_spec out_size 0); [lia |].
  rewrite to_size_t_small by lia.
  destruct (Z.ltb_spec (Z.of_nat (String.length text)) 0); [lia |].
  destruct (Z.leb_spec out_size (Z.of_nat (String.length text))); [lia |].
  simpl. f_equal. apply store_nul_ge. lia.
Qed.

Lemma join_overflow out out_size a b :
  INT_MAX < Z.of_nat (String.length (format_s_slash_s a b))
  \/ ~ fits (format_s_slash_s a b) out_size ->
  (let '(written, text) := snprintf_s_slash_s out out_size a b in
   if (written <? 0) || (out_size <=? to_size_t written)
   then @inl _ string FormattingError else inr text)
  = inl FormattingError.
Proof.
  unfold fits, snprintf_s_slash_s. intros H.
  set (text := format_s_slash_s a b) in *.
  destruct (Z.ltb_spec INT_MAX (Z.of_nat (String.length text))); [done |].
  destruct H as [H|H]; [lia |].
  assert (((Z.of_nat (String.length text) <? 0)
           || (out_size <=? to_size_t (Z.of_nat (String.length text))))
          = true) as Hc.
  { rewrite to_size_t_small by lia. apply orb_true_iff. right.
    apply Z.leb_le. lia. }
  destruct (Z.leb_spec out_size 0); by rewrite Hc.
Qed.

End LauncherFacts.

(** ** The forwarded argument vector *)

Section ChildArgv.

Implicit Types (argv : list string) (child : list (option string)).

Lemma length_copy_loop argv child (idxs : list nat) :
  length (foldl (fun child i => <[i := argv !! i]> child) child idxs)
  = length child.
Proof.
  revert child. induction idxs as [|i idxs IH]; intros child; simpl;
    [done |]. by rewrite IH, length_insert.
Qed.

Lemma lookup_copy_loop argv child (idxs : list nat) (j : nat) :
  (j < length child)%nat ->
  foldl (fun child i => <[i := argv !! i]> child) child idxs !! j
  = if decide (j ∈ idxs) then Some (argv !! j) else child !! j.
Proof.
  revert child. induction idxs as [|i idxs IH]; intros child Hj; simpl.
  - destruct (decide (j ∈ [])) as [H|H]; [by apply elem_of_nil in H | done].
  - rewrite IH by (by rewrite length_insert).
    destruct (decide (j ∈ idxs)) as [Hin|Hin].
    + rewrite decide_True; [done | by apply elem_of_cons; right].
    + destruct (decide (i = j)) as [->|Hne].
      * rewrite decide_True by (by apply elem_of_cons; left).
        by apply list_lookup_insert_eq.
      * rewrite decide_False.
        -- by apply list_lookup_insert_ne.
        -- intros [Heq|Hin']%elem_of_cons; [by symmetry in Heq | done].
Qed.

Lemma length_build_child_argv helper argv :
  length (build_child_argv helper argv) = S (length argv).
Proof.
  unfold build_child_argv, copy_arguments.
  rewrite !length_insert, length_copy_loop, length_insert,
    length_replicate. lia.
Qed.

(** The slots of the vector, one by one. *)
Lemma lookup_build_child_argv helper argv (j : nat) :
  build_child_argv helper argv !! j
  = if decide (j = length argv) then Some None
    else if decide (j = O) then Some (Some helper)
    else if decide (j < length argv)%nat then Some (argv !! j)
    else None.
Proof.
  unfold build_child_argv, copy_arguments.
  set (argc := length argv).
  assert (length (<[O:=Some helper]> (replicate (argc + 1) None))
          = S argc) as Hlen.
  { rewrite length_insert, length_replicate. lia. }
  destruct (decide (j = argc)) as [->|Hne].
  { apply list_lookup_insert_eq. rewrite length_copy_loop, Hlen. lia. }
  rewrite list_lookup_insert_ne by done.
  destruct (decide (j < S argc)%nat) as [Hlt|Hge].
  - rewrite lookup_copy_loop by (rewrite Hlen; lia).
    destruct (decide (j = O)) as [->|Hj0].
    + rewrite decide_False by (rewrite elem_of_seq; lia).
      apply list_lookup_insert_eq. rewrite length_replicate. lia.
    + rewrite decide_True by (rewrite elem_of_seq; lia).
      rewrite decide_True by lia. done.
  - rewrite decide_False by lia. rewrite decide_False by lia.
    apply lookup_ge_None. rewrite length_copy_loop, Hlen. lia.
Qed.

(** The vector as a whole, for a non-empty [argv]. *)
Lemma build_child_argv_cons helper arg0 args :
  build_child_argv helper (arg0 :: args)
  = Some helper :: (Some <$> args) ++ [None].
Proof.
  apply list_eq. intros j. rewrite lookup_build_child_argv. simpl.
  destruct (decide (j = S (length args))) as [->|Hne].
  { simpl. rewrite lookup_app_r by (rewrite length_fmap; lia).
    rewrite length_fmap, Nat.sub_diag. reflexivity. }
  destruct j as [|j]; simpl; [done |].
  destruct (decide (S j < S (length args))%nat) as [Hlt|Hge].
  - rewrite lookup_app_l by (rewrite length_fmap; lia).
    rewrite list_lookup_fmap.
    destruct (args !! j) eqn:Hj; [done |].
    apply lookup_ge_None in Hj. lia.
  - symmetry. apply lookup_ge_None.
    rewrite length_app, length_fmap. simpl. lia.
Qed.

End ChildArgv.

(** ** The runs of [main], stage by stage *)

Section MainFacts.

Variable PATH_MAX : Z.
Variable os : OS.
Variable uninitialised : string.

Implicit Types (argv : list string).

Lemma main_resolve_failed argv err :
  resolved os (argv !! O) uninitialised PATH_MAX = inl err ->
  run (main PATH_MAX os uninitialised argv)
  = (Exit 1, [EvRealpath (argv !! O); EvStderr resolve_diagnostic]).
Proof.
  intros H. unfold run, main, bind.
  rewrite resolve_helper_executable_log, H. done.
Qed.

Lemma main_calloc_failed argv helper :
  resolved os (argv !! O) uninitialised PATH_MAX = inr helper ->
  calloc os (Z.of_nat (length argv) + 1) sizeof_char_ptr = false ->
  run (main PATH_MAX os uninitialised argv)
  = (Exit 1,
     [EvRealpath (argv !! O);
      EvCalloc (Z.of_nat (length argv) + 1) sizeof_char_ptr;
      EvStderr allocate_diagnostic]).
Proof.
  intros H Hc. unfold run, main, bind.
  rewrite resolve_helper_executable_log, H.
  unfold sys_calloc, bind, emit, ret. simpl. by rewrite Hc.
Qed.

Lemma main_execv_failed argv helper e :
  resolved os (argv !! O) uninitialised PATH_MAX = inr helper ->
  calloc os (Z.of_nat (length argv) + 1) sizeof_char_ptr = true ->
  execv os helper (build_child_argv helper argv) = Some e ->
  run (main PATH_MAX os uninitialised argv)
  = (Exit 1,
     [EvRealpath (argv !! O);
      EvCalloc (Z.of_nat (length argv) + 1) sizeof_char_ptr;
      EvExecv helper (build_child_argv helper argv);
      EvStderr (launch_prefix +:+ ": " +:+ strerror os e +:+ newline);
      EvFree]).
Proof.
  intros H Hc He. unfold run, main, bind.
  rewrite resolve_helper_executable_log, H.
  unfold sys_calloc, sys_execv, perror, free, bind, emit, ret. simpl.
  by rewrite Hc, He.
Qed.

Lemma main_execv_replaced argv helper :
  resolved os (argv !! O) uninitialised PATH_MAX = inr helper ->
  calloc os (Z.of_nat (length argv) + 1) sizeof_char_ptr = true ->
  execv os helper (build_child_argv helper argv) = None ->
  run (main PATH_MAX os uninitialised argv)
  = (Replaced helper (build_child_argv helper argv),
     [EvRealpath (argv !! O);
      EvCalloc (Z.of_nat (length argv) + 1) sizeof_char_ptr;
      EvExecv helper (build_child_argv helper argv)]).
Proof.
  intros H Hc He. unfold run, main, bind.
  rewrite resolve_helper_executable_log, H.
  unfold sys_calloc, sys_execv, bind, emit, ret. simpl.
  by rewrite Hc, He.
Qed.

End MainFacts.

(** ** Paths and their installation root *)

Section Paths.

Import CString CStringFacts.

Lemma app_assoc_string (a b c : string) :
  (a +:+ b) +:+ c = a +:+ b +:+ c.
Proof.
  induction a as [|x a IH]; [done |].
  change (String x ((a +:+ b) +:+ c) = String x (a +:+ b +:+ c)).
  by f_equal.
Qed.

Lemma parent_dir_None s : parent_dir s = None <-> depth s = O.
Proof.
  unfold parent_dir, depth. rewrite <- strrchr_None.
  by destruct (strrchr s "/").
Qed.

Lemma parent_dir_depth s d : parent_dir s = Some d -> depth s = S (depth d).
Proof.
  unfold parent_dir, depth. destruct (strrchr s "/") as [i|] eqn:H; [|done].
  intros [= <-]. by apply count_char_store_nul.
Qed.

(** The last component is what follows the last ['/']. *)
Lemma parent_dir_app d name :
  depth name = O -> parent_dir (d +:+ "/" +:+ name) = Some d.
Proof.
  intros H. unfold parent_dir. apply strrchr_None in H.
  change (d +:+ "/" +:+ name) with (d +:+ String "/" name).
  rewrite strrchr_app_sep by done. by rewrite store_nul_app.
Qed.

(** A path has an installation root exactly when it has two ['/']. *)
Lemma installation_root_None canonical :
  installation_root canonical = None <-> (depth canonical < 2)%nat.
Proof.
  unfold installation_root.
  destruct (parent_dir canonical) as [d|] eqn:Hd; simpl.
  - apply parent_dir_depth in Hd. rewrite parent_dir_None. lia.
  - apply parent_dir_None in Hd. split; [lia | done].
Qed.

Lemma installation_root_layout root dir launcher :
  depth dir = O -> depth launcher = O ->
  installation_root (root +:+ "/" +:+ dir +:+ "/" +:+ launcher) = Some root.
Proof.
  intros Hd Hl. unfold installation_root.
  replace (root +:+ "/" +:+ dir +:+ "/" +:+ launcher)
    with ((root +:+ "/" +:+ dir) +:+ "/" +:+ launcher)
    by (by rewrite !app_assoc_string).
  rewrite parent_dir_app by done. simpl. by apply parent_dir_app.
Qed.

(** The root is a proper prefix of the canonical path. *)
Lemma installation_root_Some canonical root :
  installation_root canonical = Some root ->
  exists dir launcher,
    canonical = root +:+ "/" +:+ dir +:+ "/" +:+ launcher
    /\ depth dir = O /\ depth launcher = O.
Proof.
  unfold installation_root, parent_dir.
  destruct (strrchr canonical "/") as [i|] eqn:Hi; simpl; [|done].
  destruct (strrchr (store_nul canonical i) "/") as [j|] eqn:Hj; [|done].
  intros [= <-].
  destruct (strrchr_Some _ _ _ Hi) as (launcher & Hc & Hl).
  destruct (strrchr_Some _ _ _ Hj) as (dir & Hd & Hdir).
  exists dir, launcher. split; [| by split; apply strrchr_None].
  etrans; [exact Hc |].
  set (d := store_nul canonical i) in *.
  set (root := store_nul d j) in *.
  clearbody root. clearbody d. subst d.
  by rewrite app_assoc_string.
Qed.

End Paths.

(** ** Resolution and [main], in closed form *)

Section ClosedForm.

Variable PATH_MAX : Z.
Variable os : OS.
Variable uninitialised : string.

Import CString CStringFacts.

Lemma resolved_cases argv0 out out_size :
  resolved os argv0 out out_size
  = match argv0 ≫= realpath os with
    | None => inl ResolutionError
    | Some canonical =>
        match installation_root canonical with
        | None => inl LayoutError
        | Some root =>
            let '(written, text) :=
              snprintf_s_slash_s out out_size root
                kHelperRelativeExecutable in
            if (written <? 0) || (out_size <=? to_size_t written)
            then inl FormattingError else inr text
        end
    end.
Proof.
  destruct (argv0 ≫= realpath os) as [canonical|] eqn:Hr;
    [| by apply resolved_realpath_failed].
  unfold installation_root.
  destruct (parent_dir canonical) as [dir|] eqn:Hd; simpl;
    [| by eapply resolved_no_parent].
  destruct (parent_dir dir) as [root|] eqn:Hg;
    [| by eapply resolved_no_grandparent].
  by eapply resolved_join.
Qed.

(** Resolution succeeds when the root is found and the joined path fits. *)
Lemma resolved_fits argv0 out out_size canonical root :
  out_size <= INT_MAX ->
  argv0 ≫= realpath os = Some canonical ->
  installation_root canonical = Some root ->
  fits (root +:+ "/" +:+ kHelperRelativeExecutable) out_size ->
  resolved os argv0 out out_size
  = inr (root +:+ "/" +:+ kHelperRelativeExecutable).
Proof.
  intros Hmax Hr Hroot Hfit. rewrite resolved_cases, Hr, Hroot.
  apply join_fits; [| done]. unfold fits in Hfit.
  change (format_s_slash_s root kHelperRelativeExecutable)
    with (root +:+ "/" +:+ kHelperRelativeExecutable). lia.
Qed.

Lemma main_cases (argv : list string) :
  run (main PATH_MAX os uninitialised argv)
  = let argv0 := argv !! O in
    let count := Z.of_nat (length argv) + 1 in
    match resolved os argv0 uninitialised PATH_MAX with
    | inl _ => (Exit 1, [EvRealpath argv0; EvStderr resolve_diagnostic])
    | inr helper =>
        let child := build_child_argv helper argv in
        if calloc os count sizeof_char_ptr then
          match execv os helper child with
          | None =>
              (Replaced helper child,
               [EvRealpath argv0; EvCalloc count sizeof_char_ptr;
                EvExecv helper child])
          | Some e =>
              (Exit 1,
               [EvRealpath argv0; EvCalloc count sizeof_char_ptr;
                EvExecv helper child;
                EvStderr (launch_diagnostic os e); EvFree])
          end
        else
          (Exit 1,
           [EvRealpath argv0; EvCalloc count sizeof_char_ptr;
            EvStderr allocate_diagnostic])
    end.
Proof.
  simpl.
  destruct (resolved os (argv !! O) uninitialised PATH_MAX)
    as [err|helper] eqn:Hr; [by eapply main_resolve_failed |].
  destruct (calloc os _ _) eqn:Hc; [| by eapply main_calloc_failed].
  destruct (execv os helper _) as [e|] eqn:He.
  - by apply main_execv_failed.
  - by apply main_execv_replaced.
Qed.

End ClosedForm.

(** ** The diagnostics *)

Section Diagnostics.

Variable os : OS.

Import CString CStringFacts.

Lemma resolve_diagnostic_one_line : one_line resolve_diagnostic.
Proof.
  exists "snapo: failed to resolve helper executable path". by split.
Qed.

Lemma allocate_diagnostic_one_line : one_line allocate_diagnostic.
Proof. exists "snapo: failed to allocate argument buffer". by split. Qed.

Lemma launch_diagnostic_one_line e :
  count_char "010" (strerror os e) = O ->
  one_line (launch_diagnostic os e).
Proof.
  intros H. exists (launch_prefix +:+ ": " +:+ strerror os e). split.
  - unfold launch_diagnostic. by rewrite !app_assoc_string.
  - rewrite !count_char_app, H. reflexivity.
Qed.

Lemma resolve_allocate_distinct : resolve_diagnostic <> allocate_diagnostic.
Proof. discriminate. Qed.

Lemma resolve_launch_distinct e : resolve_diagnostic <> launch_diagnostic os e.
Proof. discriminate. Qed.

Lemma allocate_launch_distinct e :
  allocate_diagnostic <> launch_diagnostic os e.
Proof. discriminate. Qed.

End Diagnostics.

(** ** Properties of resolution *)

Section ResolutionProperties.

Import CString CStringFacts.

(** C1, as the code has it.  When the canonical path of the launcher is
    [root/dir/launcher], with [dir] and [launcher] single path components,
    and [root/Helpers/...] fits in a buffer of [PATH_MAX] bytes ([PATH_MAX]
    being an [int] constant), then resolution succeeds and returns exactly
    [root] joined with the compiled-in suffix: the file name and one
    directory are removed.  The result is computed from the canonical path
    alone: two invocations, on any systems and under any names or links,
    whose paths canonicalise to the same file resolve to the same helper. *)
Theorem resolve_helper_executable_two_components_up
    PATH_MAX os argv0 os' argv0' out out' root dir launcher :
  PATH_MAX <= INT_MAX ->
  argv0 ≫= realpath os
    = Some (root +:+ "/" +:+ dir +:+ "/" +:+ launcher) ->
  argv0' ≫= realpath os'
    = Some (root +:+ "/" +:+ dir +:+ "/" +:+ launcher) ->
  depth dir = O -> depth launcher = O ->
  fits (root +:+ "/" +:+ kHelperRelativeExecutable) PATH_MAX ->
  run (resolve_helper_executable os argv0 out PATH_MAX)
    = (inr (root +:+ "/" +:+ kHelperRelativeExecutable),
       [EvRealpath argv0])
  /\ resolved os' argv0' out' PATH_MAX = resolved os argv0 out PATH_MAX.
Proof.
  intros Hmax Hr Hr' Hd Hl Hfit.
  pose proof (installation_root_layout root dir launcher Hd Hl) as Hroot.
  split.
  - unfold run. rewrite resolve_helper_executable_log.
    by erewrite resolved_fits.
  - by erewrite !resolved_fits.
Qed.

(** C4.  When the canonical path has fewer than two ['/'] (one of the two
    strips finds no ['/'] to cut at), resolution fails at a [strrchr]
    check, and this is the only way to reach that failure. *)
Theorem layout_error_when_fewer_than_two_levels
    os argv0 out out_size canonical :
  argv0 ≫= realpath os = Some canonical ->
  ((depth canonical < 2)%nat <->
     parent_dir canonical = None
     \/ exists dir, parent_dir canonical = Some dir
                    /\ parent_dir dir = None)
  /\ ((depth canonical < 2)%nat ->
      resolved os argv0 out out_size = inl LayoutError)
  /\ (resolved os argv0 out out_size = inl LayoutError ->
      (depth canonical < 2)%nat).
Proof.
  intros Hr. split; [| split].
  - rewrite <- installation_root_None. unfold installation_root.
    destruct (parent_dir canonical) as [d|]; simpl.
    + split.
      * intros H. right. by exists d.
      * intros [H|(d' & [= <-] & H)]; done.
    + split; [by left | done].
  - intros H. apply installation_root_None in H.
    by rewrite resolved_cases, Hr, H.
  - rewrite resolved_cases, Hr.
    destruct (installation_root canonical) as [root|] eqn:Hroot.
    + destruct (snprintf_s_slash_s _ _ _ _) as [w t].
      by destruct (_ || _).
    + intros _. by apply installation_root_None.
Qed.

(** C7.  Once the installation root is found, resolution fails at the
    [snprintf] check exactly when the joined path and its terminator do not
    fit in the buffer or [snprintf] itself reports failure (the length is
    not an [int]); otherwise it returns the joined path. *)
Theorem formatting_error_iff_too_long
    os argv0 out out_size canonical root :
  argv0 ≫= realpath os = Some canonical ->
  installation_root canonical = Some root ->
  let joined := root +:+ "/" +:+ kHelperRelativeExecutable in
  (resolved os argv0 out out_size = inl FormattingError <->
     ~ fits joined out_size \/ INT_MAX < Z.of_nat (String.length joined))
  /\ (~ (~ fits joined out_size
         \/ INT_MAX < Z.of_nat (String.length joined)) ->
      resolved os argv0 out out_size = inr joined).
Proof.
  intros Hr Hroot joined.
  rewrite resolved_cases, Hr, Hroot.
  change (format_s_slash_s root kHelperRelativeExecutable)
    with joined in *.
  destruct (Z_lt_dec INT_MAX (Z.of_nat (String.length joined)))
    as [Hbig|Hint].
  { rewrite join_overflow by (by left). split; [by split; auto |].
    intros H. contradict H. by right. }
  destruct (Z_le_dec (Z.of_nat (String.length joined) + 1) out_size)
    as [Hfit|Hnofit].
  - rewrite join_fits; [| unfold joined, format_s_slash_s in *; lia | done].
    split; [| done]. split; [done |].
    intros [H|H]; [by contradict H | lia].
  - rewrite join_overflow by (by right). split; [by split; auto |].
    intros H. contradict H. by left.
Qed.

(** C10.  Every successful resolution returns a path shorter than the
    buffer, made of the installation root of the canonical path, a ['/']
    and the compiled-in suffix. *)
Theorem resolved_path_shape PATH_MAX os argv0 out helper :
  resolved os argv0 out PATH_MAX = inr helper ->
  Z.of_nat (String.length helper) < PATH_MAX
  /\ exists canonical root,
       argv0 ≫= realpath os = Some canonical
       /\ installation_root canonical = Some root
       /\ helper
          = root +:+ "/" +:+
            "Helpers/Snap-O Network Inspector.app/Contents/MacOS/Snap-O Network Inspector".
Proof.
  rewrite resolved_cases.
  destruct (argv0 ≫= realpath os) as [canonical|] eqn:Hr; [|done].
  destruct (installation_root canonical) as [root|] eqn:Hroot; [|done].
  pose proof (join_fits out PATH_MAX root kHelperRelativeExecutable) as Hok.
  pose proof (join_overflow out PATH_MAX root kHelperRelativeExecutable)
    as Hko.
  unfold fits in *.
  destruct (snprintf_s_slash_s _ _ _ _) as [written text].
  remember (format_s_slash_s root kHelperRelativeExecutable) as joined
    eqn:Hjoined.
  destruct (Z_lt_dec INT_MAX (Z.of_nat (String.length joined)))
    as [Hbig|Hint].
  { rewrite Hko by (by left). done. }
  destruct (Z_le_dec (Z.of_nat (String.length joined) + 1) PATH_MAX)
    as [Hfit|Hnofit].
  - rewrite Hok by lia. intros [= <-]. split; [lia |].
    exists canonical, root. by rewrite Hjoined.
  - rewrite Hko by (by right). done.
Qed.

End ResolutionProperties.

(** ** Properties of [main] *)

Section MainProperties.

Variable PATH_MAX : Z.
Variable os : OS.
Variable uninitialised : string.

Implicit Types (argv : list string).

Local Abbreviation resolve argv :=
  (resolved os (argv !! O) uninitialised PATH_MAX).
Local Abbreviation allocate argv :=
  (calloc os (Z.of_nat (length argv) + 1) sizeof_char_ptr).
Local Abbreviation start argv := (run (main PATH_MAX os uninitialised argv)).

Local Ltac by_cases argv :=
  rewrite (main_cases PATH_MAX os uninitialised argv); cbv zeta.

(** Membership of an [execv] call in an explicit log. *)
Local Ltac split_log :=
  let H := fresh "H" in
  simpl; split;
  [ intros H;
    repeat (apply elem_of_cons in H as [H|H]; [try discriminate |]);
    [injection H as -> ->; done .. | by apply elem_of_nil in H]
  | intros (H & ? & ->); try discriminate; injection H as ->;
    repeat first [apply list_elem_of_here | apply list_elem_of_further] ].

(** C2.  For an argument list of length [n >= 1], the vector that [main]
    builds holds [n] arguments followed by the null pointer: the helper
    path in slot 0 and the original arguments 1 to [n-1], unchanged and in
    order.  That vector, and no other, is what [execv] is called with, on
    every run that reaches [execv]. *)
Theorem launch_forwards_arguments argv :
  (1 <= length argv)%nat ->
  (forall helper,
      let forwarded := helper :: drop 1 argv in
      build_child_argv helper argv = (Some <$> forwarded) ++ [None]
      /\ length forwarded = length argv
      /\ forwarded !! O = Some helper
      /\ forall i, (1 <= i)%nat -> forwarded !! i = argv !! i)
  /\ (forall path child,
        EvExecv path child ∈ (start argv).2 <->
        resolve argv = inr path /\ allocate argv = true
        /\ child = build_child_argv path argv).
Proof.
  intros Hn. destruct argv as [|arg0 args]; [simpl in Hn; lia |].
  split.
  - intros helper forwarded. unfold forwarded. simpl. rewrite drop_0.
    split; [apply build_child_argv_cons |].
    split; [done |]. split; [done |].
    intros [|i] Hi; [lia | done].
  - intros path child. by_cases (arg0 :: args).
    destruct (resolved _ _ _ _) as [err|helper]; [by split_log |].
    destruct (calloc os _ _); [| by split_log].
    destruct (execv os helper _) as [e|]; split_log.
Qed.

(** C3.  [main] returns in three ways only: resolution failed, the
    allocation failed, or [execv] returned.  Each time the status is 1 and
    exactly one line was written to standard error; the three texts are
    pairwise different, so the line tells the stage. *)
Theorem failure_exits_1_with_stage_diagnostic argv :
  (forall e, CString.count_char "010" (strerror os e) = O) ->
  (forall err, resolve argv = inl err ->
      exists log, start argv = (Exit 1, log)
                  /\ stderr_of log = [resolve_diagnostic])
  /\ (forall helper, resolve argv = inr helper -> allocate argv = false ->
      exists log, start argv = (Exit 1, log)
                  /\ stderr_of log = [allocate_diagnostic])
  /\ (forall helper e, resolve argv = inr helper -> allocate argv = true ->
      execv os helper (build_child_argv helper argv) = Some e ->
      exists log, start argv = (Exit 1, log)
                  /\ stderr_of log = [launch_diagnostic os e])
  /\ (forall status log, start argv = (Exit status, log) ->
      status = 1
      /\ exists text, stderr_of log = [text] /\ one_line text
           /\ (text = resolve_diagnostic
               \/ text = allocate_diagnostic
               \/ exists e, text = launch_diagnostic os e))
  /\ resolve_diagnostic <> allocate_diagnostic
  /\ forall e, resolve_diagnostic <> launch_diagnostic os e
               /\ allocate_diagnostic <> launch_diagnostic os e.
Proof.
  intros Hstr. repeat split.
  - intros err H. by_cases argv. rewrite H. by eexists.
  - intros helper H Hc. by_cases argv. rewrite H, Hc. by eexists.
  - intros helper e H Hc He. by_cases argv. rewrite H, Hc, He.
    by eexists.
  - revert H. by_cases argv.
    destruct (resolved _ _ _ _) as [err|helper]; [by intros [= <- <-] |].
    destruct (calloc os _ _); [| by intros [= <- <-]].
    by destruct (execv os helper _) as [e|]; intros [= <- <-].
  - revert H. by_cases argv.
    destruct (resolved _ _ _ _) as [err|helper].
    { intros [= <- <-]. exists resolve_diagnostic.
      split; [done |]. split; [apply resolve_diagnostic_one_line | auto]. }
    destruct (calloc os _ _).
    + destruct (execv os helper _) as [e|]; intros [= <- <-].
      exists (launch_diagnostic os e). split; [done |].
      split; [by apply launch_diagnostic_one_line | eauto].
    + intros [= <- <-]. exists allocate_diagnostic.
      split; [done |]. split; [apply allocate_diagnostic_one_line | auto].
  - apply resolve_allocate_distinct.
  - apply resolve_launch_distinct.
  - apply allocate_launch_distinct.
Qed.

(** C5.  When [realpath] fails on the launcher's own path, resolution
    fails at the [realpath] check, [main] returns 1 after one line on
    standard error, and [execv] is not called. *)
Theorem realpath_failure_exits_without_launch argv :
  argv !! O ≫= realpath os = None ->
  resolve argv = inl ResolutionError
  /\ start argv
     = (Exit 1, [EvRealpath (argv !! O); EvStderr resolve_diagnostic])
  /\ Forall (fun e => is_execv e = false) (start argv).2.
Proof.
  intros H.
  pose proof (resolved_realpath_failed os _ uninitialised PATH_MAX H) as Hr.
  assert (start argv
          = (Exit 1, [EvRealpath (argv !! O); EvStderr resolve_diagnostic]))
    as Hrun by (by_cases argv; by rewrite Hr).
  split; [done |]. split; [done |].
  rewrite Hrun. by repeat constructor.
Qed.

(** C9.  When the argument vector cannot be allocated, [main] writes its
    allocation diagnostic, returns 1 and does not call [execv], whatever
    the number of arguments. *)
Theorem allocation_failure_exits_without_launch argv helper :
  resolve argv = inr helper ->
  allocate argv = false ->
  start argv
  = (Exit 1,
     [EvRealpath (argv !! O);
      EvCalloc (Z.of_nat (length argv) + 1) sizeof_char_ptr;
      EvStderr allocate_diagnostic])
  /\ stderr_of (start argv).2 = [allocate_diagnostic]
  /\ Forall (fun e => is_execv e = false) (start argv).2.
Proof.
  intros Hr Hc.
  rewrite (main_calloc_failed PATH_MAX os uninitialised argv helper Hr Hc).
  split; [done |]. split; [done |]. by repeat constructor.
Qed.

(** C6.  When [execv] returns (there is no helper to execute at the
    computed path), [main] returns 1 after writing the [perror] line, and
    that line differs from what any run, on any system, writes when
    resolution fails. *)
Theorem launch_failure_diagnostic_is_distinct argv helper e :
  resolve argv = inr helper ->
  allocate argv = true ->
  execv os helper (build_child_argv helper argv) = Some e ->
  start argv
  = (Exit 1,
     [EvRealpath (argv !! O);
      EvCalloc (Z.of_nat (length argv) + 1) sizeof_char_ptr;
      EvExecv helper (build_child_argv helper argv);
      EvStderr (launch_diagnostic os e);
      EvFree])
  /\ stderr_of (start argv).2 = [launch_diagnostic os e]
  /\ forall PATH_MAX' os' uninitialised' argv' err,
       resolved os' (argv' !! O) uninitialised' PATH_MAX' = inl err ->
       stderr_of (run (main PATH_MAX' os' uninitialised' argv')).2
       <> stderr_of (start argv).2.
Proof.
  intros Hr Hc He.
  rewrite (main_execv_failed PATH_MAX os uninitialised argv helper e
             Hr Hc He).
  split; [done |]. split; [done |].
  intros PATH_MAX' os' uninitialised' argv' err Hr'.
  rewrite (main_resolve_failed PATH_MAX' os' uninitialised' argv' err Hr').
  intros H. apply (resolve_launch_distinct os e). by injection H.
Qed.

End MainProperties.

(** C8, as the code has it.  Resolution calls [realpath] on the launcher's
    own path and nothing else.  When that path canonicalises, has an
    installation root, and the joined path fits in the buffer of [PATH_MAX]
    bytes ([PATH_MAX] being an [int] constant), resolution
    succeeds with the same helper path on every system that canonicalises the
    launcher alike, whatever else differs between them (in particular what
    [execv] finds at the helper path).  That there is no helper to execute
    shows only when [execv] returns. *)
Theorem resolution_ignores_helper_presence
    PATH_MAX os os' argv0 out out' canonical root :
  PATH_MAX <= CString.INT_MAX ->
  argv0 ≫= realpath os = Some canonical ->
  argv0 ≫= realpath os' = Some canonical ->
  installation_root canonical = Some root ->
  fits (root +:+ "/" +:+ kHelperRelativeExecutable) PATH_MAX ->
  let helper := root +:+ "/" +:+ kHelperRelativeExecutable in
  run (resolve_helper_executable os argv0 out PATH_MAX)
    = (inr helper, [EvRealpath argv0])
  /\ run (resolve_helper_executable os' argv0 out' PATH_MAX)
     = (inr helper, [EvRealpath argv0])
  /\ forall argv uninitialised e,
       argv !! O = argv0 ->
       calloc os (Z.of_nat (length argv) + 1) sizeof_char_ptr = true ->
       execv os helper (build_child_argv helper argv) = Some e ->
       run (main PATH_MAX os uninitialised argv)
       = (Exit 1,
          [EvRealpath argv0;
           EvCalloc (Z.of_nat (length argv) + 1) sizeof_char_ptr;
           EvExecv helper (build_child_argv helper argv);
           EvStderr (launch_diagnostic os e);
           EvFree]).
Proof.
  intros Hmax Hr Hr' Hroot Hfit helper.
  split; [| split].
  - unfold run. rewrite resolve_helper_executable_log.
    by erewrite resolved_fits.
  - unfold run. rewrite resolve_helper_executable_log.
    by erewrite resolved_fits.
  - intros argv uninitialised e <- Hc He.
    apply main_execv_failed; try done.
    by eapply resolved_fits.
Qed.

(** ** The properties on concrete systems *)

Section Examples.

Import Darwin.

Lemma error_text_one_line e : CString.count_char "010" (error_text e) = O.
Proof.
  unfold error_text.
  destruct (e =? ENOENT); [done |]. by destruct (e =? ENOMEM).
Qed.

(** C1, as stated, fails: a launcher at [/opt/app/A/B/launcher] resolves the
    helper under [/opt/app/A], not under [/opt/app]. *)
Lemma three_components_counterexample :
  let os := system (Some nested_launcher) true None in
  nested_launcher = "/opt/app" +:+ "/" +:+ "A" +:+ "/" +:+ "B" +:+ "/"
                    +:+ "launcher"
  /\ realpath os link_to_launcher = Some nested_launcher
  /\ resolved os (Some link_to_launcher) "" PATH_MAX
     = inr (helper_under "/opt/app/A")
  /\ resolved os (Some link_to_launcher) "" PATH_MAX
     <> inr (helper_under "/opt/app").
Proof.
  split; [reflexivity |]. split; [reflexivity |].
  split; [vm_compute; reflexivity | vm_compute; discriminate].
Qed.

(** The launcher of the application bundle, reached through a link. *)
Lemma resolve_helper_executable_two_components_up_witness :
  let os := system (Some bundle_launcher) true None in
  run (resolve_helper_executable os (Some link_to_launcher) "" PATH_MAX)
    = (inr (helper_under bundle_contents),
       [EvRealpath (Some link_to_launcher)])
  /\ resolved os (Some "snapo") "" PATH_MAX
     = resolved os (Some link_to_launcher) "" PATH_MAX.
Proof.
  apply (resolve_helper_executable_two_components_up
           PATH_MAX (system (Some bundle_launcher) true None)
           (Some link_to_launcher)
           (system (Some bundle_launcher) true None) (Some "snapo")
           "" "" bundle_contents "MacOS" "snapo").
  - vm_compute. discriminate.
  - reflexivity.
  - reflexivity.
  - reflexivity.
  - reflexivity.
  - vm_compute. discriminate.
Defined.

(** [launcher --flag value], installed under [/opt/app]. *)
Lemma launch_forwards_arguments_witness :
  let os := system (Some "/opt/app/bin/launcher") true None in
  let argv := ["launcher"; "--flag"; "value"] in
  let helper := helper_under "/opt/app" in
  build_child_argv helper argv
    = [Some helper; Some "--flag"; Some "value"; None]
  /\ EvExecv helper [Some helper; Some "--flag"; Some "value"; None]
       ∈ (run (main PATH_MAX os "" argv)).2.
Proof.
  intros os argv helper.
  assert (1 <= length argv)%nat as Hn by (simpl; lia).
  destruct (launch_forwards_arguments PATH_MAX os "" argv Hn) as [Hv Hcall].
  split.
  - exact (proj1 (Hv helper)).
  - apply (Hcall helper (build_child_argv helper argv)).
    split; [vm_compute; reflexivity |]. split; reflexivity.
Defined.

(** A launcher at the root of the file system. *)
Lemma failure_exits_1_with_stage_diagnostic_witness :
  let os := system (Some "/launcher") true None in
  exists log, run (main PATH_MAX os "" ["snapo"]) = (Exit 1, log)
              /\ stderr_of log = [resolve_diagnostic].
Proof.
  intros os.
  destruct (failure_exits_1_with_stage_diagnostic PATH_MAX os "" ["snapo"]
              error_text_one_line) as [Hresolve _].
  apply (Hresolve LayoutError). vm_compute. reflexivity.
Defined.

(** [/launcher] has one ['/'] only. *)
Lemma layout_error_when_fewer_than_two_levels_witness :
  let os := system (Some "/launcher") true None in
  resolved os (Some "snapo") "" PATH_MAX = inl LayoutError.
Proof.
  intros os.
  assert (Some "snapo" ≫= realpath os = Some "/launcher") as Hr
    by reflexivity.
  destruct (layout_error_when_fewer_than_two_levels
              os (Some "snapo") "" PATH_MAX "/launcher" Hr) as (_ & Hfail & _).
  apply Hfail. unfold depth. simpl. lia.
Defined.

(** The launcher's file is gone when [realpath] runs. *)
Lemma realpath_failure_exits_without_launch_witness :
  let os := system None true None in
  run (main PATH_MAX os "" ["snapo"; "--flag"])
  = (Exit 1, [EvRealpath (Some "snapo"); EvStderr resolve_diagnostic]).
Proof.
  intros os.
  assert (["snapo"; "--flag"] !! O ≫= realpath os = None) as Hr
    by reflexivity.
  exact (proj1 (proj2 (realpath_failure_exits_without_launch
                         PATH_MAX os "" ["snapo"; "--flag"] Hr))).
Defined.

(** No helper under [/opt/app]: [execv] fails with [ENOENT]. *)
Lemma launch_failure_diagnostic_is_distinct_witness :
  let os := system (Some "/opt/app/bin/launcher") true (Some ENOENT) in
  stderr_of (run (main PATH_MAX os "" ["launcher"; "--flag"; "value"])).2
  = ["snapo: failed to launch helper: No such file or directory"
       +:+ newline].
Proof.
  intros os.
  refine (proj1 (proj2 (launch_failure_diagnostic_is_distinct
                          PATH_MAX os "" ["launcher"; "--flag"; "value"]
                          (helper_under "/opt/app") ENOENT _ _ _))).
  - vm_compute. reflexivity.
  - reflexivity.
  - reflexivity.
Defined.

(** Under [long_root] the joined path takes 1078 bytes. *)
Lemma formatting_error_iff_too_long_witness :
  let os := system (Some long_launcher) true None in
  resolved os (Some "snapo") "" PATH_MAX = inl FormattingError.
Proof.
  intros os.
  assert (Some "snapo" ≫= realpath os = Some long_launcher) as Hr
    by reflexivity.
  assert (installation_root long_launcher = Some long_root) as Hroot
    by (vm_compute; reflexivity).
  apply (proj1 (formatting_error_iff_too_long
                  os (Some "snapo") "" PATH_MAX long_launcher long_root
                  Hr Hroot)).
  left. unfold fits. vm_compute. intros H. apply H. reflexivity.
Defined.

(** The helper path of the application bundle is 110 bytes long. *)
Lemma resolved_path_shape_witness :
  let os := system (Some bundle_launcher) true None in
  Z.of_nat (String.length (helper_under bundle_contents)) < PATH_MAX.
Proof.
  intros os.
  refine (proj1 (resolved_path_shape PATH_MAX os (Some link_to_launcher) ""
                   (helper_under bundle_contents) _)).
  vm_compute. reflexivity.
Defined.

(** [calloc] returns the null pointer. *)
Lemma allocation_failure_exits_without_launch_witness :
  let os := system (Some "/opt/app/bin/launcher") false None in
  stderr_of (run (main PATH_MAX os "" ["launcher"; "--flag"; "value"])).2
  = [allocate_diagnostic]
  /\ Forall (fun e => is_execv e = false)
       (run (main PATH_MAX os "" ["launcher"; "--flag"; "value"])).2.
Proof.
  intros os.
  refine (proj2 (allocation_failure_exits_without_launch
                   PATH_MAX os "" ["launcher"; "--flag"; "value"]
                   (helper_under "/opt/app") _ _)).
  - vm_compute. reflexivity.
  - reflexivity.
Defined.

(** C8, as stated, fails: the launcher under [long_root] canonicalises (to
    1014 bytes, below [PATH_MAX]) and has an installation root, but the
    joined path is 1078 bytes long and resolution fails at the [snprintf]
    check. *)
Lemma long_root_counterexample :
  let os := system (Some long_launcher) true None in
  realpath os "snapo" = Some long_launcher
  /\ Z.of_nat (String.length long_launcher) < PATH_MAX
  /\ (2 <= depth long_launcher)%nat
  /\ installation_root long_launcher = Some long_root
  /\ resolved os (Some "snapo") "" PATH_MAX = inl FormattingError
  /\ forall helper, resolved os (Some "snapo") "" PATH_MAX <> inr helper.
Proof.
  assert (resolved (system (Some long_launcher) true None) (Some "snapo") ""
            PATH_MAX = inl FormattingError) as H
    by (vm_compute; reflexivity).
  cbv zeta. rewrite H.
  split; [reflexivity |]. split; [vm_compute; reflexivity |].
  split; [vm_compute; lia |]. split; [vm_compute; reflexivity |].
  split; [reflexivity | discriminate].
Qed.

(** The bundle with and without its helper. *)
Lemma resolution_ignores_helper_presence_witness :
  let present := system (Some bundle_launcher) true None in
  let absent := system (Some bundle_launcher) true (Some ENOENT) in
  run (resolve_helper_executable absent (Some link_to_launcher) "" PATH_MAX)
    = (inr (helper_under bundle_contents),
       [EvRealpath (Some link_to_launcher)])
  /\ run (resolve_helper_executable present (Some link_to_launcher) "" PATH_MAX)
     = (inr (helper_under bundle_contents),
        [EvRealpath (Some link_to_launcher)]).
Proof.
  intros present absent.
  assert (PATH_MAX <= CString.INT_MAX) as Hmax by (vm_compute; discriminate).
  assert (installation_root bundle_launcher = Some bundle_contents) as Hroot
    by (vm_compute; reflexivity).
  assert (fits (bundle_contents +:+ "/" +:+ kHelperRelativeExecutable)
            PATH_MAX) as Hfit by (vm_compute; discriminate).
  destruct (resolution_ignores_helper_presence
              PATH_MAX absent present (Some link_to_launcher) "" ""
              bundle_launcher bundle_contents Hmax eq_refl eq_refl Hroot Hfit)
    as (Ha & Hp & _).
  split; [exact Ha | exact Hp].
Defined.

End Examples.

(** ** Further properties of resolution *)

Section MoreResolution.

Import CString CStringFacts.

Variable os : OS.

(** The check after [snprintf] does not depend on what [out] held. *)
Lemma join_ignores_out out out' out_size a b :
  (let '(written, text) := snprintf_s_slash_s out out_size a b in
   if (written <? 0) || (out_size <=? to_size_t written)
   then @inl _ string FormattingError else inr text)
  = (let '(written, text) := snprintf_s_slash_s out' out_size a b in
     if (written <? 0) || (out_size <=? to_size_t written)
     then inl FormattingError else inr text).
Proof.
  destruct (Z_lt_dec INT_MAX (Z.of_nat (String.length (format_s_slash_s a b))))
    as [Hbig|Hint].
  { rewrite (join_overflow out), (join_overflow out'); auto. }
  destruct (Z_le_dec (Z.of_nat (String.length (format_s_slash_s a b)) + 1)
              out_size) as [Hfit|Hnofit].
  - rewrite (join_fits out), (join_fits out'); auto; lia.
  - rewrite (join_overflow out), (join_overflow out'); auto.
Qed.

Lemma resolved_inr_elim argv0 out out_size helper :
  resolved os argv0 out out_size = inr helper ->
  exists canonical root,
    argv0 ≫= realpath os = Some canonical
    /\ installation_root canonical = Some root
    /\ helper = root +:+ "/" +:+ kHelperRelativeExecutable
    /\ fits helper out_size
    /\ Z.of_nat (String.length helper) <= INT_MAX.
Proof.
  rewrite resolved_cases.
  destruct (argv0 ≫= realpath os) as [canonical|] eqn:Hr; [|done].
  destruct (installation_root canonical) as [root|] eqn:Hroot; [|done].
  pose proof (join_fits out out_size root kHelperRelativeExecutable) as Hok.
  pose proof (join_overflow out out_size root kHelperRelativeExecutable)
    as Hko.
  unfold fits in *.
  destruct (snprintf_s_slash_s _ _ _ _) as [written text].
  remember (format_s_slash_s root kHelperRelativeExecutable) as joined
    eqn:Hjoined.
  destruct (Z_lt_dec INT_MAX (Z.of_nat (String.length joined)))
    as [Hbig|Hint].
  { rewrite Hko by (by left). done. }
  destruct (Z_le_dec (Z.of_nat (String.length joined) + 1) out_size)
    as [Hfit|Hnofit].
  - rewrite Hok by lia. intros [= <-].
    exists canonical, root. rewrite Hjoined. repeat split; try done.
    + by rewrite <- Hjoined.
    + rewrite <- Hjoined. lia.
  - rewrite Hko by (by right). done.
Qed.

Lemma resolved_inr_intro argv0 out out_size canonical root :
  argv0 ≫= realpath os = Some canonical ->
  installation_root canonical = Some root ->
  fits (root +:+ "/" +:+ kHelperRelativeExecutable) out_size ->
  Z.of_nat (String.length (root +:+ "/" +:+ kHelperRelativeExecutable))
    <= INT_MAX ->
  resolved os argv0 out out_size
  = inr (root +:+ "/" +:+ kHelperRelativeExecutable).
Proof.
  intros Hr Hroot Hfit Hint. rewrite resolved_cases, Hr, Hroot.
  by apply join_fits.
Qed.

(** X1.  [out] is written before it is read: neither the result of
    resolution nor the run of [main] depends on what the output buffer held
    before the call. *)
Theorem out_is_never_read_before_written
    PATH_MAX argv0 out out' out_size uninitialised uninitialised' argv :
  resolved os argv0 out out_size = resolved os argv0 out' out_size
  /\ run (main PATH_MAX os uninitialised argv)
     = run (main PATH_MAX os uninitialised' argv).
Proof.
  assert (forall a u u' n, resolved os a u n = resolved os a u' n) as H.
  { intros a u u' n. rewrite !resolved_cases.
    destruct (a ≫= realpath os) as [canonical|]; [|done].
    destruct (installation_root canonical) as [root|]; [|done].
    apply join_ignores_out. }
  split; [apply H |].
  rewrite !main_cases. cbv zeta.
  by rewrite (H (argv !! O) uninitialised uninitialised').
Qed.

(** X2.  Resolution succeeds exactly when [realpath] succeeds, the canonical
    path has an installation root, and the joined path, of a length that is
    an [int], fits in the buffer with its terminator; the result is then the
    joined path. *)
Theorem resolution_succeeds_iff argv0 out out_size helper :
  resolved os argv0 out out_size = inr helper <->
  exists canonical root,
    argv0 ≫= realpath os = Some canonical
    /\ installation_root canonical = Some root
    /\ helper = root +:+ "/" +:+ kHelperRelativeExecutable
    /\ fits helper out_size
    /\ Z.of_nat (String.length helper) <= INT_MAX.
Proof.
  split.
  - apply resolved_inr_elim.
  - intros (canonical & root & Hr & Hroot & -> & Hfit & Hint).
    by eapply resolved_inr_intro.
Qed.


(** X4.  Whenever resolution succeeds, the canonical path is
    [root/dir/launcher] for two components [dir] and [launcher] without
    ['/'], and the helper path is [root] joined with the suffix: exactly two
    components were removed. *)
Theorem successful_resolution_removes_two_components
    argv0 out out_size helper :
  resolved os argv0 out out_size = inr helper ->
  exists root dir launcher,
    argv0 ≫= realpath os
      = Some (root +:+ "/" +:+ dir +:+ "/" +:+ launcher)
    /\ depth dir = O /\ depth launcher = O
    /\ (depth root + 2)%nat
       = depth (root +:+ "/" +:+ dir +:+ "/" +:+ launcher)
    /\ helper = root +:+ "/" +:+ kHelperRelativeExecutable.
Proof.
  intros H.
  destruct (resolved_inr_elim _ _ _ _ H)
    as (canonical & root & Hr & Hroot & -> & _).
  destruct (installation_root_Some _ _ Hroot)
    as (dir & launcher & -> & Hd & Hl).
  exists root, dir, launcher. repeat split; try done.
  unfold depth in *.
  change (root +:+ "/" +:+ dir +:+ "/" +:+ launcher)
    with (root +:+ String "/" (dir +:+ String "/" launcher)).
  rewrite count_char_app. simpl. rewrite count_char_app. simpl.
  rewrite Hd, Hl. lia.
Qed.

(** X5.  The helper path is absolute whenever the canonical path is, so
    what [execv] runs does not depend on the working directory. *)
Theorem helper_path_is_absolute argv0 out out_size canonical helper :
  argv0 ≫= realpath os = Some canonical ->
  absolute canonical ->
  resolved os argv0 out out_size = inr helper ->
  absolute helper.
Proof.
  intros Hr [t Ht] H.
  destruct (resolved_inr_elim _ _ _ _ H)
    as (canonical' & root & Hr' & Hroot & -> & _).
  rewrite Hr in Hr'. injection Hr' as <-.
  destruct (installation_root_Some _ _ Hroot)
    as (dir & launcher & Hc & _).
  destruct root as [|c root].
  - by exists kHelperRelativeExecutable.
  - rewrite Hc in Ht.
    change (String c (root +:+ "/" +:+ dir +:+ "/" +:+ launcher)
            = String "/" t) in Ht.
    injection Ht as -> _.
    by exists (root +:+ "/" +:+ kHelperRelativeExecutable).
Qed.

(** X6.  A larger buffer never changes a successful resolution. *)
Theorem resolution_is_monotone_in_out_size
    argv0 out out' out_size out_size' helper :
  resolved os argv0 out out_size = inr helper ->
  out_size <= out_size' ->
  resolved os argv0 out' out_size' = inr helper.
Proof.
  intros H Hle.
  destruct (resolved_inr_elim _ _ _ _ H)
    as (canonical & root & Hr & Hroot & -> & Hfit & Hint).
  eapply resolved_inr_intro; try done.
  unfold fits in *. lia.
Qed.

End MoreResolution.

(** ** Further properties of the argument vector *)

Section MoreChildArgv.

Implicit Types (argv : list string) (child : list (option string)).

(** X13.  For every [argv], the empty one included, the vector is the first
    [argc] entries of the helper path followed by the arguments after the
    first, then the null pointer.  With [argc = 0] the store of the
    terminator overwrites slot 0 and the vector is the null pointer alone. *)
Theorem build_child_argv_closed_form helper argv :
  build_child_argv helper argv
  = (Some <$> take (length argv) (helper :: drop 1 argv)) ++ [None]
  /\ length (build_child_argv helper argv) = S (length argv)
  /\ build_child_argv helper argv !! length argv = Some None
  /\ build_child_argv helper [] = [None].
Proof.
  split; [| split; [apply length_build_child_argv | split; [| done]]].
  - destruct argv as [|arg0 args]; [done |].
    rewrite build_child_argv_cons. simpl. rewrite drop_0.
    by rewrite take_ge.
  - rewrite lookup_build_child_argv. by rewrite decide_True.
Qed.

(** X14.  The copy loop keeps the size of the block, stores [argv[j]] in
    every slot [j] with [1 <= j < argc] of the block, and leaves every other
    slot as it was: slot 0 and the slots from [argc] on are not touched. *)
Theorem copy_arguments_frame argc argv child (j : nat) :
  length (copy_arguments argc argv child) = length child
  /\ ((1 <= j < argc)%nat -> (j < length child)%nat ->
      copy_arguments argc argv child !! j = Some (argv !! j))
  /\ ((j < 1 \/ argc <= j)%nat ->
      copy_arguments argc argv child !! j = child !! j).
Proof.
  unfold copy_arguments. split; [apply length_copy_loop |]. split.
  - intros Hj Hlen. rewrite lookup_copy_loop by done.
    rewrite decide_True; [done |]. apply elem_of_seq. lia.
  - intros Hj. destruct (decide (j < length child)%nat) as [Hlen|Hlen].
    + rewrite lookup_copy_loop by done.
      rewrite decide_False; [done |]. rewrite elem_of_seq. lia.
    + rewrite (proj2 (lookup_ge_None child j)) by lia.
      apply lookup_ge_None. rewrite length_copy_loop. lia.
Qed.

End MoreChildArgv.

(** ** Further properties of [main] *)

Section MoreMain.

Variable PATH_MAX : Z.
Variable os : OS.
Variable uninitialised : string.

Implicit Types (argv : list string).

Local Abbreviation resolve argv :=
  (resolved os (argv !! O) uninitialised PATH_MAX).
Local Abbreviation allocate argv :=
  (calloc os (Z.of_nat (length argv) + 1) sizeof_char_ptr).
Local Abbreviation start argv := (run (main PATH_MAX os uninitialised argv)).

(** Splitting a membership in an explicit log into its cases. *)
Local Ltac log_cases H :=
  rewrite ?elem_of_cons, ?elem_of_nil in H;
  repeat destruct H as [H|H]; try discriminate H; try done.

Local Ltac in_log :=
  repeat first [apply list_elem_of_here | apply list_elem_of_further].

(** The four runs of [main]. *)
Lemma main_runs argv :
  (exists err, resolve argv = inl err
     /\ start argv
        = (Exit 1, [EvRealpath (argv !! O); EvStderr resolve_diagnostic]))
  \/ (exists helper, resolve argv = inr helper /\ allocate argv = false
        /\ start argv
           = (Exit 1,
              [EvRealpath (argv !! O);
               EvCalloc (Z.of_nat (length argv) + 1) sizeof_char_ptr;
               EvStderr allocate_diagnostic]))
  \/ (exists helper e, resolve argv = inr helper /\ allocate argv = true
        /\ execv os helper (build_child_argv helper argv) = Some e
        /\ start argv
           = (Exit 1,
              [EvRealpath (argv !! O);
               EvCalloc (Z.of_nat (length argv) + 1) sizeof_char_ptr;
               EvExecv helper (build_child_argv helper argv);
               EvStderr (launch_diagnostic os e);
               EvFree]))
  \/ (exists helper, resolve argv = inr helper /\ allocate argv = true
        /\ execv os helper (build_child_argv helper argv) = None
        /\ start argv
           = (Replaced helper (build_child_argv helper argv),
              [EvRealpath (argv !! O);
               EvCalloc (Z.of_nat (length argv) + 1) sizeof_char_ptr;
               EvExecv helper (build_child_argv helper argv)])).
Proof.
  destruct (resolve argv) as [err|helper] eqn:Hr.
  { left. exists err. split; [done |]. by eapply main_resolve_failed. }
  destruct (allocate argv) eqn:Hc.
  - destruct (execv os helper (build_child_argv helper argv)) as [e|] eqn:He.
    + right. right. left. exists helper, e.
      repeat split; try done. by apply main_execv_failed.
    + right. right. right. exists helper.
      repeat split; try done. by apply main_execv_replaced.
  - right. left. exists helper. repeat split; try done.
    by eapply main_calloc_failed.
Qed.

(** X7.  Started without any argument ([argc = 0], [argv[0]] null), [main]
    calls [realpath] on the null pointer, writes the resolution diagnostic
    and returns 1, on every system; it neither allocates nor launches. *)
Theorem main_without_arguments :
  start [] = (Exit 1, [EvRealpath None; EvStderr resolve_diagnostic]).
Proof.
  rewrite (main_resolve_failed PATH_MAX os uninitialised [] ResolutionError).
  - done.
  - by apply resolved_realpath_failed.
Qed.

(** X8.  The process image is replaced exactly when resolution, allocation
    and [execv] all succeed; [execv] then got the resolved path and the
    forwarded vector, and the run consists of the three calls alone: nothing
    is written to standard error and the block is not freed. *)
Theorem replaced_iff_all_stages_succeed argv path child :
  ((start argv).1 = Replaced path child <->
     resolve argv = inr path /\ allocate argv = true
     /\ child = build_child_argv path argv
     /\ execv os path child = None)
  /\ ((start argv).1 = Replaced path child ->
      (start argv).2
      = [EvRealpath (argv !! O);
         EvCalloc (Z.of_nat (length argv) + 1) sizeof_char_ptr;
         EvExecv path child]
      /\ stderr_of (start argv).2 = []
      /\ (EvFree ∉ (start argv).2)).
Proof.
  destruct (main_runs argv)
    as [(err & Hr & Hrun)|[(helper & Hr & Hc & Hrun)
       |[(helper & e & Hr & Hc & He & Hrun)|(helper & Hr & Hc & He & Hrun)]]];
    rewrite Hrun; simpl.
  - split; [split; [done | intros (H & _); congruence] | done].
  - split; [split; [done | intros (_ & H & _); congruence] | done].
  - split; [split; [done |] | done].
    intros (H & _ & -> & He'). congruence.
  - split.
    + split.
      * by intros [= <- <-].
      * intros (H & _ & -> & _). congruence.
    + intros [= <- <-]. split; [done |]. split; [done |].
      intros H. log_cases H.
Qed.

(** X9.  Every run writes at most one text to standard error, and writes
    one exactly when [main] returns; the status returned is 1, never 0. *)
Theorem one_diagnostic_iff_main_returns argv :
  match (start argv).1 with
  | Exit status => status = 1 /\ length (stderr_of (start argv).2) = 1%nat
  | Replaced _ _ => stderr_of (start argv).2 = []
  end.
Proof.
  destruct (main_runs argv)
    as [(err & Hr & Hrun)|[(helper & Hr & Hc & Hrun)
       |[(helper & e & Hr & Hc & He & Hrun)|(helper & Hr & Hc & He & Hrun)]]];
    by rewrite Hrun.
Qed.

(** X10.  The block is freed exactly on the runs where [calloc] succeeded
    and [execv] returned.  [free] is then the last call of the run, comes
    after the [calloc], and is made once; so no run frees without having
    allocated, and no returning run keeps a block. *)
Theorem block_freed_iff_execv_returned argv :
  (EvFree ∈ (start argv).2 <->
     exists helper e,
       resolve argv = inr helper /\ allocate argv = true
       /\ execv os helper (build_child_argv helper argv) = Some e)
  /\ (EvFree ∈ (start argv).2 ->
      exists before,
        (start argv).2 = before ++ [EvFree]
        /\ (EvFree ∉ before)
        /\ EvCalloc (Z.of_nat (length argv) + 1) sizeof_char_ptr ∈ before)
  /\ (forall status helper,
        (start argv).1 = Exit status ->
        resolve argv = inr helper -> allocate argv = true ->
        EvFree ∈ (start argv).2).
Proof.
  destruct (main_runs argv)
    as [(err & Hr & Hrun)|[(helper & Hr & Hc & Hrun)
       |[(helper & e & Hr & Hc & He & Hrun)|(helper & Hr & Hc & He & Hrun)]]];
    rewrite Hrun; simpl.
  - split; [split |split].
    + intros H. log_cases H.
    + intros (h & e & H & _). congruence.
    + intros H. log_cases H.
    + intros status h _ H. congruence.
  - split; [split |split].
    + intros H. log_cases H.
    + intros (h & e & _ & H & _). congruence.
    + intros H. log_cases H.
    + intros status h _ _ H. congruence.
  - split; [split |split].
    + intros _. by exists helper, e.
    + intros _. in_log.
    + intros _.
      exists [EvRealpath (argv !! O);
              EvCalloc (Z.of_nat (length argv) + 1) sizeof_char_ptr;
              EvExecv helper (build_child_argv helper argv);
              EvStderr (launch_diagnostic os e)].
      split; [done |]. split; [| in_log].
      intros H. log_cases H.
    + intros status h _ _ _. in_log.
  - split; [split |split].
    + intros H. log_cases H.
    + intros (h & e & H & _ & He'). congruence.
    + intros H. log_cases H.
    + intros status h H. discriminate H.
Qed.

(** X11.  Every run begins with the one call of [realpath], on [argv[0]].
    [calloc] is called exactly when resolution succeeded, before anything is
    launched, and always for [argc + 1] pointers. *)
Theorem realpath_first_then_calloc argv :
  (exists rest,
      (start argv).2 = EvRealpath (argv !! O) :: rest
      /\ forall path, EvRealpath path ∉ rest)
  /\ forall count size,
       EvCalloc count size ∈ (start argv).2 <->
       count = Z.of_nat (length argv) + 1 /\ size = sizeof_char_ptr
       /\ exists helper, resolve argv = inr helper.
Proof.
  destruct (main_runs argv)
    as [(err & Hr & Hrun)|[(helper & Hr & Hc & Hrun)
       |[(helper & e & Hr & Hc & He & Hrun)|(helper & Hr & Hc & He & Hrun)]]];
    rewrite Hrun; simpl.
  - split.
    + eexists. split; [done |]. intros path H. log_cases H.
    + intros count size. split.
      * intros H. log_cases H.
      * intros (_ & _ & h & H). congruence.
  - split.
    + eexists. split; [done |]. intros path H. log_cases H.
    + intros count size. split.
      * intros H. log_cases H. injection H as -> ->. eauto.
      * intros (-> & -> & _). in_log.
  - split.
    + eexists. split; [done |]. intros path H. log_cases H.
    + intros count size. split.
      * intros H. log_cases H. injection H as -> ->. eauto.
      * intros (-> & -> & _). in_log.
  - split.
    + eexists. split; [done |]. intros path H. log_cases H.
    + intros count size. split.
      * intros H. log_cases H. injection H as -> ->. eauto.
      * intros (-> & -> & _). in_log.
Qed.

(** X12.  Whatever [argv] is, a call of [execv] gets a path shorter than
    [PATH_MAX] and a vector of [argc + 1] slots whose slot 0 is that same
    path, whose first [argc] slots are not null, and whose last slot is the
    null pointer: the helper sees exactly [argc] arguments. *)
Theorem execv_call_is_well_formed argv path child :
  EvExecv path child ∈ (start argv).2 ->
  (1 <= length argv)%nat
  /\ Z.of_nat (String.length path) < PATH_MAX
  /\ length child = S (length argv)
  /\ child !! O = Some (Some path)
  /\ (forall i, (i < length argv)%nat ->
        exists arg, child !! i = Some (Some arg))
  /\ child !! length argv = Some None.
Proof.
  intros Hin.
  assert (resolve argv = inr path /\ child = build_child_argv path argv)
    as [Hr ->].
  { destruct (main_runs argv)
      as [(err & Hr & Hrun)|[(helper & Hr & Hc & Hrun)
         |[(helper & e & Hr & Hc & He & Hrun)|(helper & Hr & Hc & He & Hrun)]]];
      rewrite Hrun in Hin; simpl in Hin; log_cases Hin;
      by injection Hin as -> ->. }
  destruct (resolved_inr_elim _ _ _ _ _ Hr)
    as (canonical & root & Hreal & _ & _ & Hfit & _).
  destruct argv as [|arg0 args]; [done |].
  split; [simpl; lia |]. split; [unfold fits in Hfit; lia |].
  split; [apply length_build_child_argv |].
  rewrite build_child_argv_cons.
  split; [done |]. split.
  - intros [|i] Hi; simpl; [by eexists |].
    simpl in Hi. rewrite lookup_app_l by (rewrite length_fmap; lia).
    rewrite list_lookup_fmap.
    destruct (lookup_lt_is_Some_2 args i) as [arg Harg]; [lia |].
    rewrite Harg. by eexists.
  - simpl. rewrite lookup_app_r by (rewrite length_fmap; lia).
    by rewrite length_fmap, Nat.sub_diag.
Qed.

End MoreMain.

(** ** The further properties on concrete systems *)

Section MoreExamples.

Import Darwin.

(** The launcher of the application bundle is two components below
    [Contents]. *)
Lemma successful_resolution_removes_two_components_witness :
  let os := system (Some bundle_launcher) true None in
  exists root dir launcher,
    Some link_to_launcher ≫= realpath os
      = Some (root +:+ "/" +:+ dir +:+ "/" +:+ launcher)
    /\ depth dir = O /\ depth launcher = O
    /\ (depth root + 2)%nat
       = depth (root +:+ "/" +:+ dir +:+ "/" +:+ launcher)
    /\ helper_under bundle_contents
       = root +:+ "/" +:+ kHelperRelativeExecutable.
Proof.
  intros os.
  apply (successful_resolution_removes_two_components
           os (Some link_to_launcher) "" PATH_MAX
           (helper_under bundle_contents)).
  vm_compute. reflexivity.
Defined.

(** The helper of the application bundle has an absolute path. *)
Lemma helper_path_is_absolute_witness :
  absolute (helper_under bundle_contents).
Proof.
  apply (helper_path_is_absolute
           (system (Some bundle_launcher) true None)
           (Some link_to_launcher) "" PATH_MAX bundle_launcher
           (helper_under bundle_contents)).
  - reflexivity.
  - eexists. reflexivity.
  - vm_compute. reflexivity.
Defined.

(** The same helper with a buffer of 4096 bytes. *)
Lemma resolution_is_monotone_in_out_size_witness :
  resolved (system (Some bundle_launcher) true None)
    (Some link_to_launcher) "" 4096
  = inr (helper_under bundle_contents).
Proof.
  apply (resolution_is_monotone_in_out_size
           (system (Some bundle_launcher) true None)
           (Some link_to_launcher) "" "" PATH_MAX 4096
           (helper_under bundle_contents)).
  - vm_compute. reflexivity.
  - vm_compute. discriminate.
Defined.

(** [launcher --flag value], installed under [/opt/app]. *)
Lemma execv_call_is_well_formed_witness :
  let argv := ["launcher"; "--flag"; "value"] in
  let helper := helper_under "/opt/app" in
  let child := [Some helper; Some "--flag"; Some "value"; None] in
  (1 <= length argv)%nat
  /\ Z.of_nat (String.length helper) < PATH_MAX
  /\ length child = S (length argv)
  /\ child !! O = Some (Some helper)
  /\ (forall i, (i < length argv)%nat ->
        exists arg, child !! i = Some (Some arg))
  /\ child !! length argv = Some None.
Proof.
  intros argv helper child.
  apply (execv_call_is_well_formed
           PATH_MAX (system (Some "/opt/app/bin/launcher") true None) ""
           argv helper child).
  vm_compute. do 2 apply list_elem_of_further. apply list_elem_of_here.
Defined.

End MoreExamples.
